(** * Merkle trees over hashed e-mail addresses: merkletrees.js

    A shallow embedding of [buildMerkleTree], [generateMerkleProof] and
    [verifyEmail] and of the JavaScript pieces they rest on (array reads,
    [indexOf], [reduce], string concatenation), followed by the properties
    of the three functions.

    Digests are what the program has: the lower-case hexadecimal strings
    returned by [hashData]; [left + right] is string concatenation. *)

From Stdlib Require Import ZArith List String Ascii Bool Lia.
Import ListNotations.
Open Scope string_scope.
Open Scope list_scope.
Open Scope Z_scope.

(** ** SHA-256, the digest behind [hashData]

    [hashData] calls Node's [crypto.createHash('sha256')].  The results
    below hold for every function from strings to strings; this module
    gives the one the program runs, so that concrete runs of the program
    can be evaluated.  Words are 32-bit integers held in [Z]. *)
Module Sha256.

Definition wrap32 (x : Z) : Z := x mod 0x100000000.

Definition add32 (x y : Z) : Z := wrap32 (x + y).

Definition rotr (n x : Z) : Z :=
  Z.lor (Z.shiftr x n) (wrap32 (Z.shiftl x (32 - n))).

Definition xor3 (x y z : Z) : Z := Z.lxor (Z.lxor x y) z.

Definition Ch (x y z : Z) : Z :=
  Z.lxor (Z.land x y) (Z.land (Z.lxor x 0xffffffff) z).

Definition Maj (x y z : Z) : Z :=
  xor3 (Z.land x y) (Z.land x z) (Z.land y z).

Definition bigSigma0 (x : Z) : Z := xor3 (rotr 2 x) (rotr 13 x) (rotr 22 x).
Definition bigSigma1 (x : Z) : Z := xor3 (rotr 6 x) (rotr 11 x) (rotr 25 x).
Definition smallSigma0 (x : Z) : Z := xor3 (rotr 7 x) (rotr 18 x) (Z.shiftr x 3).
Definition smallSigma1 (x : Z) : Z := xor3 (rotr 17 x) (rotr 19 x) (Z.shiftr x 10).

(** The constants, as the standard defines them: the first 32 bits of
    the fractional parts of the cube roots of the first 64 primes (round
    constants) and of the square roots of the first 8 (initial state). *)
Definition isPrime (p : Z) : bool :=
  forallb (fun d => negb (p mod d =? 0))
          (map Z.of_nat (seq 2 (Z.to_nat p - 2))).

Definition primes : list Z := filter isPrime (map Z.of_nat (seq 2 310)).

Fixpoint cubeRootBits (k : nat) (n r : Z) : Z :=
  match k with
  | O => r
  | S k' =>
      let r' := r + 2 ^ Z.of_nat k' in
      cubeRootBits k' n (if r' * r' * r' <=? n then r' else r)
  end.

Definition cubeRoot (n : Z) : Z := cubeRootBits 40 n 0.

Definition roundConstants : list Z :=
  Eval vm_compute in map (fun p => wrap32 (cubeRoot (p * 2 ^ 96))) primes.

Definition initialState : list Z :=
  Eval vm_compute in
    map (fun p => wrap32 (Z.sqrt (p * 2 ^ 64))) (firstn 8 primes).

Definition word (i : nat) (ws : list Z) : Z := nth i ws 0.

(** The message as bytes, then the padding: a [0x80] byte, zero bytes up
    to 56 modulo 64, and the bit length as eight big-endian bytes. *)
Definition bytesOf (s : string) : list Z :=
  map (fun c => Z.of_N (N_of_ascii c)) (list_ascii_of_string s).

Definition bigEndian (width : nat) (x : Z) : list Z :=
  map (fun k => Z.shiftr x (8 * Z.of_nat k) mod 256) (rev (seq 0 width)).

Definition pad (msg : list Z) : list Z :=
  let n := Z.of_nat (List.length msg) in
  msg ++ [0x80] ++ repeat 0 (Z.to_nat ((55 - n) mod 64)) ++ bigEndian 8 (8 * n).

Fixpoint wordsOf (bytes : list Z) : list Z :=
  match bytes with
  | b3 :: b2 :: b1 :: b0 :: rest =>
      (((b3 * 256 + b2) * 256 + b1) * 256 + b0) :: wordsOf rest
  | _ => []
  end.

(** One round: [vars] are the working variables a..h, [window] the sixteen
    schedule words W[t..t+15]; the window slides by one word. *)
Definition round (st : list Z * list Z) (k : Z) : list Z * list Z :=
  let (vars, window) := st in
  let a := word 0 vars in let b := word 1 vars in
  let c := word 2 vars in let d := word 3 vars in
  let e := word 4 vars in let f := word 5 vars in
  let g := word 6 vars in let h := word 7 vars in
  let t1 := add32 (add32 (add32 (add32 h (bigSigma1 e)) (Ch e f g)) k)
                  (word 0 window) in
  let t2 := add32 (bigSigma0 a) (Maj a b c) in
  let next := add32 (add32 (add32 (smallSigma1 (word 14 window))
                                  (word 9 window))
                           (smallSigma0 (word 1 window)))
                    (word 0 window) in
  ([add32 t1 t2; a; b; c; add32 d t1; e; f; g], tl window ++ [next]).

Definition compress (state block : list Z) : list Z :=
  let vars := fst (fold_left round roundConstants (state, block)) in
  map (fun p => add32 (fst p) (snd p)) (combine state vars).

Fixpoint blocks (n : nat) (state ws : list Z) : list Z :=
  match n with
  | O => state
  | S n' => blocks n' (compress state (firstn 16 ws)) (skipn 16 ws)
  end.

Definition digestWords (s : string) : list Z :=
  let ws := wordsOf (pad (bytesOf s)) in
  blocks (List.length ws / 16) initialState ws.

Definition hexDigit (d : Z) : ascii :=
  ascii_of_N (Z.to_N (if d <? 10 then 48 + d else 87 + d)).

Definition hexOfWord (w : Z) : list ascii :=
  map (fun k => hexDigit (Z.shiftr w (4 * Z.of_nat k) mod 16)) (rev (seq 0 8)).

(** [crypto.createHash('sha256').update(data).digest('hex')]. *)
Definition hexDigest (s : string) : string :=
  string_of_list_ascii (flat_map hexOfWord (digestWords s)).

End Sha256.

(** ** JavaScript values used by the program *)

(** [s + t] on strings. *)
Infix "+++" := String.append (right associativity, at level 60).

(** A call either returns a value or is still running when the recursion
    or iteration budget [fuel] is used up. *)
Inductive outcome (A : Type) : Type :=
| Returns (a : A)
| OutOfFuel.
Arguments Returns {A} a.
Arguments OutOfFuel {A}.

(** [a.length] and [a[i]] on an array of strings.  A read outside the
    array gives [undefined] in JavaScript, which both uses of an element
    in this program ([left + right] and [hash + computedHash]) would turn
    into the text below; every read the three functions make is guarded
    and in range. *)
Definition len (a : list string) : Z := Z.of_nat (List.length a).

Definition get (a : list string) (i : Z) : string :=
  if (0 <=? i) && (i <? len a) then nth (Z.to_nat i) a "" else "undefined".

(** [a.indexOf(x)]: the first index whose element is [=== x], or [-1]. *)
Fixpoint indexOfFrom (a : list string) (x : string) (i : Z) : Z :=
  match a with
  | [] => -1
  | y :: a' => if String.eqb y x then i else indexOfFrom a' x (i + 1)
  end.

Definition indexOf (a : list string) (x : string) : Z := indexOfFrom a x 0.

(** [src.reduce(f, init)] with the callback [f(acc, element, i, src)]. *)
Fixpoint reduceFrom {A : Type} (f : A -> string -> Z -> list string -> A)
         (src rest : list string) (i : Z) (acc : A) : A :=
  match rest with
  | [] => acc
  | x :: rest' => reduceFrom f src rest' (i + 1) (f acc x i src)
  end.

Definition reduce {A : Type} (f : A -> string -> Z -> list string -> A)
           (src : list string) (init : A) : A :=
  reduceFrom f src src 0 init.

(** The record [{tree, root}] returned by the builder and the proof step
    [{hash, position}] pushed by the generator. *)
Record MerkleTree : Type := { tree : list string; root : string }.

Record ProofStep : Type := { hash : string; position : string }.

(** What the script prints after the two calls: the proof and the
    verdict (the branch of [if (proof)]), or that the e-mail was not
    found. *)
Inductive scriptOutput : Type :=
| ProofAndVerdict (proof : list ProofStep) (isValid : bool)
| EmailNotFound.

(** A character of a lower-case hexadecimal text. *)
Definition isLowerHex (c : ascii) : bool :=
  let n := N_of_ascii c in
  ((48 <=? n) && (n <=? 57) || (97 <=? n) && (n <=? 102))%N.

(** The demo input of the script. *)
Definition emailList : list string :=
  ["marco@example.com"; "jenna@example.com"; "tanay@example.com"].

Definition targetEmail : string := "marco@example.com".

(** ** The three functions, over any [hashData] *)
Section MerkleTrees.

Variable hashData : string -> string.

(** The [for] loop of [buildMerkleTree]: [i] runs over 0, 2, 4, ... below
    the length; [n] bounds the number of iterations. *)
Fixpoint nextLevelLoop (n : nat) (hashedEmails : list string) (i : Z)
         (nextLevel : list string) : list string :=
  match n with
  | O => nextLevel
  | S n' =>
      if i <? len hashedEmails then
        let left := get hashedEmails i in
        let right :=
          if i + 1 <? len hashedEmails then get hashedEmails (i + 1) else left in
        nextLevelLoop n' hashedEmails (i + 2)
                      (nextLevel ++ [hashData (left +++ right)])
      else nextLevel
  end.

Definition nextLevel (hashedEmails : list string) : list string :=
  nextLevelLoop (List.length hashedEmails) hashedEmails 0 [].

(** [buildMerkleTree]; [fuel] bounds the depth of the recursion. *)
Fixpoint buildMerkleTree (fuel : nat) (hashedEmails : list string)
  : outcome MerkleTree :=
  if len hashedEmails =? 1 then
    Returns {| tree := hashedEmails; root := get hashedEmails 0 |}
  else
    match fuel with
    | O => OutOfFuel
    | S fuel' => buildMerkleTree fuel' (nextLevel hashedEmails)
    end.

(** The [reduce] call of [generateMerkleProof] that prepares the next
    level. *)
Definition reduceLevel (hashedEmails : list string) : list string :=
  reduce
    (fun acc _ i src =>
       if i mod 2 =? 0 then
         let left := get src i in
         let right := if i + 1 <? len src then get src (i + 1) else left in
         acc ++ [hashData (left +++ right)]
       else acc)
    hashedEmails [].

(** The [while] loop of [generateMerkleProof]; [fuel] bounds the number
    of iterations. *)
Fixpoint proofLoop (fuel : nat) (index : Z) (hashedEmails : list string)
         (proof : list ProofStep) : outcome (list ProofStep) :=
  if len hashedEmails >? 1 then
    match fuel with
    | O => OutOfFuel
    | S fuel' =>
        let pairIndex := if index mod 2 =? 0 then index + 1 else index - 1 in
        let pairIndex :=
          if pairIndex >=? len hashedEmails then index else pairIndex in
        let proof :=
          proof ++ [ {| hash := get hashedEmails pairIndex;
                        position := if pairIndex >? index then "right"
                                    else "left" |} ] in
        let index := index / 2 in
        let hashedEmails := reduceLevel hashedEmails in
        proofLoop fuel' index hashedEmails proof
    end
  else Returns proof.

(** [generateMerkleProof]: [None] is the [null] returned when the target
    is not in the array. *)
Definition generateMerkleProof (fuel : nat) (email : string)
           (hashedEmails : list string) : outcome (option (list ProofStep)) :=
  let targetHash := hashData email in
  let index := indexOf hashedEmails targetHash in
  if index =? -1 then Returns None
  else
    match proofLoop fuel index hashedEmails [] with
    | Returns proof => Returns (Some proof)
    | OutOfFuel => OutOfFuel
    end.

(** The callback of [proof.forEach] in [verifyEmail], as a function of
    the running [computedHash]. *)
Definition verifyStep (computedHash : string) (step : ProofStep) : string :=
  let pair :=
    if String.eqb (position step) "left"
    then hash step +++ computedHash
    else computedHash +++ hash step in
  hashData pair.

Definition verifyEmail (email : string) (proof : list ProofStep)
           (root : string) : bool :=
  let computedHash := hashData email in
  let computedHash := fold_left verifyStep proof computedHash in
  String.eqb computedHash root.

(** What one iteration of the [while] loop pushes, named for the
    statements below ([proofLoop_step] shows it is the step of the loop). *)
Definition siblingStep (index : Z) (hashedEmails : list string) : ProofStep :=
  let pairIndex := if index mod 2 =? 0 then index + 1 else index - 1 in
  let pairIndex :=
    if pairIndex >=? len hashedEmails then index else pairIndex in
  {| hash := get hashedEmails pairIndex;
     position := if pairIndex >? index then "right" else "left" |}.

(** The level above [level], by recursion on the list: consecutive pairs
    are hashed together and a last unpaired entry is hashed with itself.
    Both loops above are shown to compute it. *)
Fixpoint pairUp (level : list string) : list string :=
  match level with
  | [] => []
  | [a] => [hashData (a +++ a)]
  | a :: b :: rest => hashData (a +++ b) :: pairUp rest
  end.

(** The script after the definitions of the three functions, with its
    two constants [emailList] and [targetEmail] as arguments: the tree is
    built first, then the proof is generated and, when it is not [null],
    verified against the root. *)
Definition script (fuel : nat) (emailList : list string)
           (targetEmail : string) : outcome scriptOutput :=
  let hashedEmails := map hashData emailList in
  match buildMerkleTree fuel hashedEmails with
  | OutOfFuel => OutOfFuel
  | Returns t =>
      match generateMerkleProof fuel targetEmail hashedEmails with
      | OutOfFuel => OutOfFuel
      | Returns (Some proof) =>
          let isValid := verifyEmail targetEmail proof (root t) in
          Returns (ProofAndVerdict proof isValid)
      | Returns None => Returns EmailNotFound
      end
  end.


(** ** Arrays: lengths and reads *)

Lemma len_nonneg (a : list string) : 0 <= len a.
Proof. unfold len. lia. Qed.

Lemma len_cons (x : string) (a : list string) : len (x :: a) = len a + 1.
Proof. unfold len. cbn [List.length]. lia. Qed.

Lemma len_app (a b : list string) : len (a ++ b) = len a + len b.
Proof. unfold len. rewrite length_app. lia. Qed.

Lemma get_in_range (a : list string) (i : Z) :
  0 <= i < len a -> get a i = nth (Z.to_nat i) a "".
Proof.
  intros Hi. unfold get.
  destruct (0 <=? i) eqn:H0; destruct (i <? len a) eqn:H1; cbn; trivial; lia.
Qed.

Lemma get_cons_0 (x : string) (a : list string) : get (x :: a) 0 = x.
Proof. rewrite get_in_range by (rewrite len_cons; pose proof (len_nonneg a); lia). reflexivity. Qed.

Lemma get_cons_succ (x : string) (a : list string) (i : Z) :
  0 <= i -> get (x :: a) (i + 1) = get a i.
Proof.
  intros Hi. unfold get. rewrite len_cons.
  replace (0 <=? i + 1) with true by lia.
  replace (0 <=? i) with true by lia. cbn [andb].
  replace (i + 1 <? len a + 1) with (i <? len a) by lia.
  destruct (i <? len a); trivial.
  replace (Z.to_nat (i + 1)) with (S (Z.to_nat i)) by lia. reflexivity.
Qed.

(** Induction over a level two entries at a time. *)
Lemma pair_ind (P : list string -> Prop) :
  P [] -> (forall a, P [a]) -> (forall a b l, P l -> P (a :: b :: l)) ->
  forall l, P l.
Proof.
  intros H0 H1 H2.
  assert (H : forall l, P l /\ forall a, P (a :: l)).
  { induction l as [|b l [IH1 IH2]]; split; auto. }
  intro l. apply H.
Qed.

(** ** The level above a level *)

Lemma len_pairUp (l : list string) : len (pairUp l) = (len l + 1) / 2.
Proof.
  induction l as [|a|a b l IH] using pair_ind.
  - reflexivity.
  - reflexivity.
  - cbn [pairUp]. rewrite !len_cons, IH.
    replace (len l + 1 + 1 + 1) with (len l + 1 + 1 * 2) by lia.
    rewrite Z.div_add by lia. reflexivity.
Qed.

Lemma length_pairUp (l : list string) :
  List.length (pairUp l) = Nat.div2 (S (List.length l)).
Proof.
  induction l as [|a|a b l IH] using pair_ind; trivial.
  cbn [pairUp List.length]. rewrite IH. reflexivity.
Qed.

(** The entry of the next level above index [i]: the hash of the pair
    that starts at the even index [2 * (i / 2)]. *)
Lemma get_pairUp (l : list string) : forall i, 0 <= i < len l ->
  get (pairUp l) (i / 2) =
  hashData (get l (2 * (i / 2)) +++
            (if 2 * (i / 2) + 1 <? len l then get l (2 * (i / 2) + 1)
             else get l (2 * (i / 2)))).
Proof.
  induction l as [|a|a b l IH] using pair_ind; intros i Hi.
  - cbn in Hi. lia.
  - rewrite len_cons in Hi. change (len []) with 0 in Hi.
    replace i with 0 by lia. reflexivity.
  - rewrite !len_cons in *. pose proof (len_nonneg l) as Hl.
    destruct (Z_lt_ge_dec i 2) as [Hlt|Hge].
    + replace (i / 2) with 0 by (symmetry; apply Z.div_small; lia).
      cbn [pairUp]. change (2 * 0) with 0. change (0 + 1) with 1.
      replace (1 <? len l + 1 + 1) with true by lia.
      rewrite !get_cons_0. change 1 with (0 + 1).
      rewrite get_cons_succ by lia. rewrite get_cons_0. reflexivity.
    + replace i with ((i - 2) + 1 * 2) by lia.
      rewrite Z.div_add by lia. set (j := (i - 2) / 2).
      assert (Hj : 0 <= j) by (apply Z.div_pos; lia).
      cbn [pairUp]. rewrite get_cons_succ by lia.
      unfold j. rewrite IH by lia. fold j.
      replace (2 * (j + 1)) with (2 * j + 1 + 1) by lia.
      rewrite !get_cons_succ by lia.
      replace (2 * j + 1 + 1 + 1 <? len l + 1 + 1) with (2 * j + 1 <? len l) by lia.
      reflexivity.
Qed.

(** ** The two loops compute the same next level *)

Lemma skipn_nth (a : list string) : forall n, (n < List.length a)%nat ->
  skipn n a = nth n a "" :: skipn (S n) a.
Proof.
  induction a as [|x a IH]; intros n Hn; cbn in Hn; [lia|].
  destruct n as [|n]; [reflexivity|].
  cbn [skipn nth]. rewrite IH by lia. reflexivity.
Qed.

Lemma skipn_get (a : list string) (i : Z) : 0 <= i < len a ->
  skipn (Z.to_nat i) a = get a i :: skipn (Z.to_nat (i + 1)) a.
Proof.
  intros Hi. rewrite get_in_range by trivial.
  replace (Z.to_nat (i + 1)) with (S (Z.to_nat i)) by lia.
  apply skipn_nth. unfold len in Hi. lia.
Qed.

Lemma skipn_past (a : list string) (i : Z) : len a <= i ->
  skipn (Z.to_nat i) a = [].
Proof. intros Hi. apply skipn_all2. unfold len in Hi. lia. Qed.

Lemma skipn_cons_inv (a : list string) (i : Z) (x : string) (r : list string) :
  0 <= i -> skipn (Z.to_nat i) a = x :: r ->
  i < len a /\ get a i = x /\ skipn (Z.to_nat (i + 1)) a = r /\
  len a = i + 1 + len r.
Proof.
  intros Hi H. pose proof (f_equal (@List.length string) H) as HL.
  rewrite length_skipn in HL. cbn [List.length] in HL.
  assert (Hlt : 0 <= i < len a) by (unfold len; lia).
  rewrite skipn_get in H by trivial. injection H as Hx Hr.
  unfold len. repeat split; trivial; lia.
Qed.

Lemma nextLevelLoop_pairUp : forall n a i acc,
  0 <= i -> len a <= i + 2 * Z.of_nat n ->
  nextLevelLoop n a i acc = acc ++ pairUp (skipn (Z.to_nat i) a).
Proof.
  induction n as [|n IH]; intros a i acc Hi Hn.
  - cbn [nextLevelLoop]. rewrite skipn_past by lia. cbn. now rewrite app_nil_r.
  - cbn [nextLevelLoop]. destruct (i <? len a) eqn:Hlt.
    + rewrite IH by lia. rewrite (skipn_get a i) by lia.
      replace (i + 2) with (i + 1 + 1) by lia.
      destruct (i + 1 <? len a) eqn:Hlt1.
      * rewrite (skipn_get a (i + 1)) by lia. cbn [pairUp].
        rewrite <- app_assoc. reflexivity.
      * rewrite (skipn_past a (i + 1)) by lia.
        rewrite (skipn_past a (i + 1 + 1)) by lia. cbn [pairUp].
        now rewrite app_nil_r.
    + rewrite skipn_past by lia. cbn. now rewrite app_nil_r.
Qed.

Lemma nextLevel_pairUp (l : list string) : nextLevel l = pairUp l.
Proof.
  unfold nextLevel. rewrite nextLevelLoop_pairUp; trivial; unfold len; lia.
Qed.

Lemma reduceFrom_pairUp (src : list string) : forall rest i acc,
  0 <= i -> skipn (Z.to_nat i) src = rest ->
  reduceFrom
    (fun acc _ i src =>
       if i mod 2 =? 0 then
         let left := get src i in
         let right := if i + 1 <? len src then get src (i + 1) else left in
         acc ++ [hashData (left +++ right)]
       else acc) src rest i acc
  = acc ++ (if i mod 2 =? 0 then pairUp rest else pairUp (tl rest)).
Proof.
  induction rest as [|x r IH]; intros i acc Hi Hsk.
  - cbn. destruct (i mod 2 =? 0); now rewrite app_nil_r.
  - destruct (skipn_cons_inv src i x r Hi Hsk) as (Hlt & Hx & Hr & Hlen).
    cbn [reduceFrom]. rewrite IH by (trivial; lia).
    destruct (i mod 2 =? 0) eqn:Hpar.
    + replace ((i + 1) mod 2 =? 0) with false
        by (symmetry; apply Z.eqb_neq; apply Z.eqb_eq in Hpar;
            Z.div_mod_to_equations; lia).
      cbv zeta. rewrite Hx, <- app_assoc. f_equal.
      destruct r as [|y r'].
      * change (len []) with 0 in Hlen.
        replace (i + 1 <? len src) with false by lia. reflexivity.
      * pose proof (len_nonneg (y :: r')) as Hnn. rewrite len_cons in *.
        pose proof (len_nonneg r').
        replace (i + 1 <? len src) with true by lia.
        destruct (skipn_cons_inv src (i + 1) y r' ltac:(lia) Hr) as (_ & Hy & _).
        rewrite Hy. reflexivity.
    + replace ((i + 1) mod 2 =? 0) with true
        by (symmetry; apply Z.eqb_eq; apply Z.eqb_neq in Hpar;
            Z.div_mod_to_equations; lia).
      reflexivity.
Qed.

Lemma reduceLevel_pairUp (l : list string) : reduceLevel l = pairUp l.
Proof.
  unfold reduceLevel, reduce. rewrite reduceFrom_pairUp by (trivial; lia).
  reflexivity.
Qed.

(** ** Unfolding the recursion and the loop *)

Lemma buildMerkleTree_base (fuel : nat) (l : list string) :
  len l = 1 ->
  buildMerkleTree fuel l = Returns {| tree := l; root := get l 0 |}.
Proof. intros H. destruct fuel; cbn [buildMerkleTree]; rewrite H; reflexivity. Qed.

Lemma buildMerkleTree_step (fuel : nat) (l : list string) :
  len l <> 1 ->
  buildMerkleTree (S fuel) l = buildMerkleTree fuel (nextLevel l).
Proof.
  intros H. cbn [buildMerkleTree].
  destruct (len l =? 1) eqn:E; [lia|reflexivity].
Qed.

Lemma buildMerkleTree_out (l : list string) :
  len l <> 1 -> buildMerkleTree 0 l = OutOfFuel.
Proof.
  intros H. cbn [buildMerkleTree].
  destruct (len l =? 1) eqn:E; [lia|reflexivity].
Qed.

Lemma proofLoop_done (fuel : nat) (index : Z) (l : list string)
      (acc : list ProofStep) :
  len l <= 1 -> proofLoop fuel index l acc = Returns acc.
Proof.
  intros H. destruct fuel; cbn [proofLoop];
    (destruct (len l >? 1) eqn:E; [lia|reflexivity]).
Qed.

Lemma proofLoop_step (fuel : nat) (index : Z) (l : list string)
      (acc : list ProofStep) :
  1 < len l ->
  proofLoop (S fuel) index l acc =
  proofLoop fuel (index / 2) (reduceLevel l) (acc ++ [siblingStep index l]).
Proof.
  intros H. cbn [proofLoop].
  destruct (len l >? 1) eqn:E; [reflexivity|lia].
Qed.

Lemma proofLoop_out (index : Z) (l : list string) (acc : list ProofStep) :
  1 < len l -> proofLoop 0 index l acc = OutOfFuel.
Proof.
  intros H. cbn [proofLoop]. destruct (len l >? 1) eqn:E; [reflexivity|lia].
Qed.

(** ** Replaying a step gives the parent *)

Lemma even_index (i : Z) : i mod 2 = 0 -> 2 * (i / 2) = i.
Proof. intros. Z.div_mod_to_equations. lia. Qed.

Lemma odd_index (i : Z) : i mod 2 <> 0 -> 2 * (i / 2) = i - 1.
Proof. intros. Z.div_mod_to_equations. lia. Qed.

Lemma verifyStep_parent (l : list string) (index : Z) :
  0 <= index < len l ->
  verifyStep (get l index) (siblingStep index l) = get (pairUp l) (index / 2).
Proof.
  intros Hi. rewrite get_pairUp by trivial.
  unfold siblingStep, verifyStep.
  destruct (index mod 2 =? 0) eqn:Hpar.
  - apply Z.eqb_eq in Hpar. rewrite (even_index _ Hpar).
    destruct (index + 1 >=? len l) eqn:Hge.
    + replace (index >? index) with false by lia.
      replace (index + 1 <? len l) with false by lia. reflexivity.
    + replace (index + 1 >? index) with true by lia.
      replace (index + 1 <? len l) with true by lia. reflexivity.
  - apply Z.eqb_neq in Hpar. rewrite (odd_index _ Hpar).
    replace (index - 1 >=? len l) with false by lia.
    replace (index - 1 >? index) with false by lia.
    replace (index - 1 + 1) with index by lia.
    replace (index <? len l) with true by lia. reflexivity.
Qed.

(** ** Number of levels *)

Lemma log2_up_half (n : nat) : (2 <= n)%nat ->
  Nat.log2_up n = S (Nat.log2_up (Nat.div2 (S n))).
Proof.
  intros Hn. set (m := Nat.div2 (S n)).
  assert (Hm : (n <= 2 * m <= n + 1)%nat).
  { unfold m. rewrite Nat.div2_div.
    pose proof (Nat.div_mod_eq (S n) 2) as E.
    pose proof (Nat.mod_upper_bound (S n) 2). lia. }
  destruct (Nat.eq_dec m 1) as [E1|N1].
  - rewrite E1. assert (n = 2)%nat as -> by lia. reflexivity.
  - assert (H1 : (1 < m)%nat) by lia.
    pose proof (Nat.log2_up_spec m H1) as [Hlo Hhi].
    pose proof (Nat.log2_up_pos m H1) as Hpos.
    apply Nat.log2_up_unique; [lia|].
    cbn [Nat.pred]. rewrite Nat.pow_succ_r'.
    destruct (Nat.log2_up m) as [|k]; [lia|].
    cbn [Nat.pred] in Hlo. rewrite Nat.pow_succ_r' in *. lia.
Qed.

Lemma length_pairUp_lt (l : list string) : 1 < len l ->
  (2 <= List.length l)%nat /\
  0 < len (pairUp l) /\
  Nat.log2_up (List.length l) = S (Nat.log2_up (List.length (pairUp l))).
Proof.
  intros H. unfold len in H.
  rewrite len_pairUp, length_pairUp. unfold len.
  repeat split; [lia| |apply log2_up_half; lia].
  apply Z.div_str_pos. lia.
Qed.

(** ** The builder returns, and the loop's steps replay to its root *)

Lemma single_level (l : list string) : len l = 1 -> l = [get l 0].
Proof.
  intros H. destruct l as [|x [|y l]]; unfold len in H; cbn in H; try lia.
  rewrite get_cons_0. reflexivity.
Qed.

Lemma proofLoop_builds : forall (n : nat) (l : list string),
  List.length l = n ->
  forall (index : Z) (acc : list ProofStep) (fuel : nat),
  0 <= index < len l -> (Nat.log2_up n <= fuel)%nat ->
  exists steps,
    proofLoop fuel index l acc = Returns (acc ++ steps) /\
    List.length steps = Nat.log2_up n /\
    forall fuel', (Nat.log2_up n <= fuel')%nat ->
      buildMerkleTree fuel' l =
      Returns {| tree := [fold_left verifyStep steps (get l index)];
                 root := fold_left verifyStep steps (get l index) |}.
Proof.
  induction n as [n IH] using lt_wf_ind.
  intros l Hn index acc fuel Hi Hfuel.
  destruct (Z_le_gt_dec (len l) 1) as [Hle|Hgt].
  - (* the root level *)
    assert (Hl : len l = 1) by lia.
    assert (n = 1)%nat as -> by (unfold len in Hl; lia).
    assert (index = 0) as -> by lia.
    exists []. rewrite proofLoop_done, app_nil_r by trivial.
    repeat split. intros fuel' _.
    rewrite buildMerkleTree_base by trivial. cbn [fold_left].
    rewrite <- single_level by trivial. reflexivity.
  - destruct (length_pairUp_lt l ltac:(lia)) as (H2 & Hpos & Hlog).
    rewrite Hn in Hlog, H2.
    assert (Hsmall : (List.length (pairUp l) < n)%nat).
    { rewrite length_pairUp, Nat.div2_div, Hn.
      apply Nat.Div0.div_lt_upper_bound. lia. }
    assert (Hidx : 0 <= index / 2 < len (pairUp l)).
    { rewrite len_pairUp. split; [apply Z.div_pos; lia|].
      apply Z.div_lt_upper_bound; [lia|].
      pose proof (Z.mul_div_le (len l + 1) 2).
      pose proof (Z.mod_pos_bound (len l + 1) 2).
      pose proof (Z.div_mod (len l + 1) 2). lia. }
    destruct fuel as [|fuel]; [lia|].
    destruct (IH _ Hsmall (pairUp l) eq_refl (index / 2)
                 (acc ++ [siblingStep index l]) fuel Hidx ltac:(lia))
      as (steps & Hloop & Hlen & Hbuild).
    exists (siblingStep index l :: steps).
    rewrite proofLoop_step, reduceLevel_pairUp, Hloop by lia.
    rewrite <- app_assoc. repeat split.
    + cbn [List.length]. lia.
    + intros fuel' Hf'. destruct fuel' as [|fuel']; [lia|].
      rewrite buildMerkleTree_step, nextLevel_pairUp by lia.
      rewrite Hbuild by lia. cbn [fold_left].
      rewrite verifyStep_parent by trivial. reflexivity.
Qed.

(** ** [indexOf] finds the first occurrence *)

Lemma indexOfFrom_absent (a : list string) (x : string) : forall i,
  ~ In x a -> indexOfFrom a x i = -1.
Proof.
  induction a as [|y a IH]; intros i Hx; cbn [indexOfFrom]; trivial.
  destruct (String.eqb_spec y x) as [->|Hne].
  - exfalso. apply Hx. now left.
  - apply IH. intro. apply Hx. now right.
Qed.

Lemma indexOfFrom_first (a : list string) (x : string) : forall k i,
  0 <= k < len a -> get a k = x ->
  (forall j, 0 <= j < k -> get a j <> x) ->
  indexOfFrom a x i = i + k.
Proof.
  induction a as [|y a IH]; intros k i Hk Hget Hfirst.
  - cbn in Hk. lia.
  - rewrite len_cons in Hk. cbn [indexOfFrom].
    destruct (Z.eq_dec k 0) as [->|Hk0].
    + rewrite get_cons_0 in Hget. subst y. rewrite String.eqb_refl. lia.
    + destruct (String.eqb_spec y x) as [->|Hne].
      * exfalso. apply (Hfirst 0); [lia|apply get_cons_0].
      * rewrite (IH (k - 1) (i + 1)); try lia.
        -- rewrite <- Hget. replace k with (k - 1 + 1) at 2 by lia.
           symmetry. apply get_cons_succ. lia.
        -- intros j Hj. rewrite <- (get_cons_succ y a j) by lia.
           apply Hfirst. lia.
Qed.

Lemma In_first (a : list string) (x : string) : In x a ->
  exists k, 0 <= k < len a /\ get a k = x /\
            forall j, 0 <= j < k -> get a j <> x.
Proof.
  induction a as [|y a IH]; intros Hin; [destruct Hin|].
  pose proof (len_nonneg a) as Hnn.
  destruct (string_dec y x) as [->|Hne].
  - exists 0. rewrite len_cons, get_cons_0. repeat split; lia.
  - destruct Hin as [Hin|Hin]; [contradiction|].
    destruct (IH Hin) as (k & Hk & Hget & Hfirst).
    exists (k + 1). rewrite len_cons, get_cons_succ by lia.
    repeat split; trivial; try lia.
    intros j Hj. destruct (Z.eq_dec j 0) as [->|Hj0].
    + now rewrite get_cons_0.
    + replace j with (j - 1 + 1) by lia. rewrite get_cons_succ by lia.
      apply Hfirst. lia.
Qed.

Lemma indexOf_In (a : list string) (x : string) : In x a ->
  0 <= indexOf a x < len a /\ get a (indexOf a x) = x.
Proof.
  intros Hin. destruct (In_first a x Hin) as (k & Hk & Hget & Hfirst).
  unfold indexOf. rewrite (indexOfFrom_first a x k 0 Hk Hget Hfirst).
  cbn. split; trivial.
Qed.

Lemma generateMerkleProof_found (fuel : nat) (email : string)
      (hashedEmails : list string) :
  In (hashData email) hashedEmails ->
  generateMerkleProof fuel email hashedEmails =
  match proofLoop fuel (indexOf hashedEmails (hashData email)) hashedEmails [] with
  | Returns proof => Returns (Some proof)
  | OutOfFuel => OutOfFuel
  end.
Proof.
  intros Hin. destruct (indexOf_In _ _ Hin) as [Hidx _].
  unfold generateMerkleProof. cbv zeta.
  destruct (indexOf hashedEmails (hashData email) =? -1) eqn:E; [lia|reflexivity].
Qed.

(** ** The properties of the three functions *)

(** C1.  Round trip: for every list [L] of e-mails and every [e] in it,
    with the leaves [map hashData L], the generator returns a proof, the
    builder returns a tree, and [verifyEmail] accepts [e] with that proof
    against the tree's root.  The hash of [e] is taken by the generator
    and the verifier themselves (their first line), so they are called
    with [e].  Neither distinctness of the items nor any property of the
    hash function is needed; the fuel is the number of levels above the
    leaves. *)
Theorem C1_round_trip (L : list string) (e : string) (fuel : nat) :
  In e L -> (Nat.log2_up (List.length L) <= fuel)%nat ->
  exists proof t,
    generateMerkleProof fuel e (map hashData L) = Returns (Some proof) /\
    buildMerkleTree fuel (map hashData L) = Returns t /\
    verifyEmail e proof (root t) = true.
Proof.
  intros Hin Hfuel. set (leaves := map hashData L).
  assert (Hmem : In (hashData e) leaves) by (apply in_map; exact Hin).
  destruct (indexOf_In _ _ Hmem) as [Hidx Hget].
  assert (Hlen : List.length leaves = List.length L) by apply length_map.
  rewrite <- Hlen in Hfuel.
  destruct (proofLoop_builds _ leaves eq_refl
              (indexOf leaves (hashData e)) [] fuel Hidx Hfuel)
    as (steps & Hloop & _ & Hbuild).
  exists steps. eexists. rewrite generateMerkleProof_found, Hloop by trivial.
  split; [reflexivity|]. split; [apply Hbuild; exact Hfuel|].
  unfold verifyEmail. cbn [root]. rewrite Hget. apply String.eqb_refl.
Qed.

Lemma buildMerkleTree_empty (fuel : nat) :
  buildMerkleTree fuel [] = OutOfFuel.
Proof.
  induction fuel as [|fuel IH].
  - reflexivity.
  - rewrite buildMerkleTree_step by (cbn; lia). exact IH.
Qed.

(** C2, as the code has it.  On the empty array the builder returns no
    root and no tree: the array is not of length 1, its next level is
    again empty, and whatever the depth allowed the call has not
    returned.  The builder checks nothing about its input and has no
    error to raise. *)
Theorem C2_empty_never_returns :
  nextLevel [] = [] /\ forall fuel, buildMerkleTree fuel [] = OutOfFuel.
Proof. split; [reflexivity|apply buildMerkleTree_empty]. Qed.

(** C3.  Odd-length duplication: for three leaves [a; b; c] the builder's
    next level is [hash (a + b); hash (c + c)] (the generator's [reduce]
    gives the same level) and the root is the hash of these two joined;
    the tree is returned as soon as two recursive calls are allowed. *)
Theorem C3_three_leaves (a b c : string) (fuel : nat) :
  nextLevel [a; b; c] = [hashData (a +++ b); hashData (c +++ c)] /\
  reduceLevel [a; b; c] = [hashData (a +++ b); hashData (c +++ c)] /\
  buildMerkleTree (S (S fuel)) [a; b; c] =
  Returns
    {| tree := [hashData (hashData (a +++ b) +++ hashData (c +++ c))];
       root := hashData (hashData (a +++ b) +++ hashData (c +++ c)) |}.
Proof.
  repeat split; try reflexivity.
  rewrite !buildMerkleTree_step by (rewrite ?nextLevel_pairUp; cbn; lia).
  rewrite !nextLevel_pairUp. cbn [pairUp]. apply buildMerkleTree_base.
  reflexivity.
Qed.

(** C4.  Single-leaf identity: the tree built from [[d]] has root [d], at
    any depth allowed, with no hashing; replaying the empty proof from
    [d] gives [d]; and [verifyEmail], which starts from the digest of its
    e-mail, accepts the empty proof against that digest. *)
Theorem C4_single_leaf (d email : string) (fuel : nat) :
  buildMerkleTree fuel [d] = Returns {| tree := [d]; root := d |} /\
  fold_left verifyStep [] d = d /\
  verifyEmail email [] (hashData email) = true.
Proof.
  split; [|split].
  - rewrite buildMerkleTree_base by reflexivity. now rewrite get_cons_0.
  - reflexivity.
  - unfold verifyEmail. cbn [fold_left]. apply String.eqb_refl.
Qed.

Lemma verifyStep_not_left (computedHash : string) (step : ProofStep) :
  position step <> "left" ->
  verifyStep computedHash step = hashData (computedHash +++ hash step).
Proof.
  intros H. unfold verifyStep.
  destruct (String.eqb_spec (position step) "left"); [contradiction|reflexivity].
Qed.

(** C5, as the code has it.  The verifier tests the side tag against
    ["left"] only: a step with any other tag, ["right"] or not, is
    combined as a right sibling, [hash (computedHash + hash)], and the
    verifier's boolean is the one it returns for the same proof with the
    tag written ["right"]. *)
Theorem C5_other_tag_is_right (email : string) (before : list ProofStep)
        (step : ProofStep) (after : list ProofStep) (root : string) :
  position step <> "left" ->
  verifyStep (fold_left verifyStep before (hashData email)) step =
  hashData (fold_left verifyStep before (hashData email) +++ hash step) /\
  verifyEmail email (before ++ step :: after) root =
  verifyEmail email
    (before ++ {| hash := hash step; position := "right" |} :: after) root.
Proof.
  intros H. split; [apply verifyStep_not_left; exact H|].
  unfold verifyEmail. rewrite !fold_left_app. cbn [fold_left].
  rewrite (verifyStep_not_left _ step H).
  rewrite verifyStep_not_left by (cbn; discriminate). reflexivity.
Qed.

(** C6.  Non-membership: when the digest of the target is not among the
    leaves, the generator returns [null], whatever the size of the array
    and without entering the loop (any fuel). *)
Theorem C6_absent_is_null (fuel : nat) (email : string)
        (hashedEmails : list string) :
  ~ In (hashData email) hashedEmails ->
  generateMerkleProof fuel email hashedEmails = Returns None.
Proof.
  intros H. unfold generateMerkleProof, indexOf.
  rewrite indexOfFrom_absent by exact H. reflexivity.
Qed.

(** C7.  Proof length: for [n >= 1] leaves and a target among them, the
    generator returns a proof of exactly [ceil (log2 n)] steps (once that
    many iterations are allowed), and the empty proof when [n = 1]. *)
Theorem C7_proof_length (fuel : nat) (email : string)
        (hashedEmails : list string) :
  In (hashData email) hashedEmails ->
  (Nat.log2_up (List.length hashedEmails) <= fuel)%nat ->
  exists proof,
    generateMerkleProof fuel email hashedEmails = Returns (Some proof) /\
    List.length proof = Nat.log2_up (List.length hashedEmails) /\
    (List.length hashedEmails = 1%nat -> proof = []).
Proof.
  intros Hin Hfuel. destruct (indexOf_In _ _ Hin) as [Hidx _].
  destruct (proofLoop_builds _ hashedEmails eq_refl
              (indexOf hashedEmails (hashData email)) [] fuel Hidx Hfuel)
    as (steps & Hloop & Hlen & _).
  exists steps. rewrite generateMerkleProof_found, Hloop by trivial.
  repeat split; trivial.
  intros H1. rewrite H1 in Hlen. destruct steps; [reflexivity|discriminate].
Qed.

Lemma proofLoop_acc : forall (fuel : nat) (index : Z) (l : list string)
                               (acc : list ProofStep),
  proofLoop fuel index l acc =
  match proofLoop fuel index l [] with
  | Returns steps => Returns (acc ++ steps)
  | OutOfFuel => OutOfFuel
  end.
Proof.
  induction fuel as [|fuel IH]; intros index l acc;
    destruct (Z_le_gt_dec (len l) 1) as [Hle|Hgt].
  - rewrite !proofLoop_done by trivial. now rewrite app_nil_r.
  - rewrite !proofLoop_out by lia. reflexivity.
  - rewrite !proofLoop_done by trivial. now rewrite app_nil_r.
  - rewrite !proofLoop_step by lia.
    rewrite (IH _ _ (acc ++ _)), (IH _ _ ([] ++ _)).
    destruct (proofLoop fuel (index / 2) (reduceLevel l) []) as [steps|];
      [|reflexivity].
    cbn [app]. now rewrite <- app_assoc.
Qed.

(** With enough iterations allowed, the loop returns the proof so far,
    then the step of this iteration, then what it returns from index
    [floor (index / 2)] of the next level. *)
Lemma proofLoop_first_step (fuel : nat) (index : Z) (l : list string)
      (proof : list ProofStep) :
  1 < len l -> 0 <= index < len l ->
  (Nat.log2_up (List.length l) <= S fuel)%nat ->
  exists rest,
    proofLoop (S fuel) index l proof =
    Returns (proof ++ siblingStep index l :: rest) /\
    proofLoop fuel (index / 2) (nextLevel l) [] = Returns rest.
Proof.
  intros Hlen Hi Hfuel.
  destruct (length_pairUp_lt l Hlen) as (_ & _ & Hlog).
  assert (Hidx : 0 <= index / 2 < len (pairUp l)).
  { rewrite len_pairUp. split; [apply Z.div_pos; lia|].
    apply Z.div_lt_upper_bound; [lia|].
    pose proof (Z.div_mod (len l + 1) 2).
    pose proof (Z.mod_pos_bound (len l + 1) 2). lia. }
  destruct (proofLoop_builds _ (pairUp l) eq_refl (index / 2) [] fuel Hidx
              ltac:(lia)) as (rest & Hrest & _).
  cbn [app] in Hrest. exists rest.
  rewrite proofLoop_step, proofLoop_acc, reduceLevel_pairUp, nextLevel_pairUp,
    Hrest by exact Hlen.
  rewrite <- app_assoc. split; reflexivity.
Qed.

(** C8.  Self-pair: when the loop is at the last index of a level of odd
    length (more than one entry, so that a step is recorded), the proof
    it returns continues the proof so far with a step that carries the
    entry at that very index as sibling and the side ["left"]; for a
    target found at that index of the leaves, this is the first step of
    the proof the generator returns, with the target's own digest.
    Replaying the step hashes the entry joined with itself, which is the
    builder's parent of that entry, where the duplicate stands on the
    right. *)
Theorem C8_self_pair (fuel : nat) (index : Z) (level : list string)
        (proof : list ProofStep) :
  1 < len level -> len level mod 2 = 1 -> index = len level - 1 ->
  (Nat.log2_up (List.length level) <= fuel)%nat ->
  (exists rest,
      proofLoop fuel index level proof =
      Returns (proof ++
               {| hash := get level index; position := "left" |} :: rest)) /\
  (forall email,
      indexOf level (hashData email) = index ->
      get level index = hashData email /\
      exists rest,
        generateMerkleProof fuel email level =
        Returns (Some ({| hash := hashData email; position := "left" |}
                         :: rest))) /\
  verifyStep (get level index)
             {| hash := get level index; position := "left" |} =
  hashData (get level index +++ get level index) /\
  get (nextLevel level) (index / 2) =
  hashData (get level index +++ get level index).
Proof.
  intros Hlen Hodd Hidx Hfuel.
  assert (Hpar : index mod 2 = 0) by (subst index; Z.div_mod_to_equations; lia).
  assert (Hstep : siblingStep index level =
                  {| hash := get level index; position := "left" |}).
  { unfold siblingStep. rewrite Hpar. cbn [Z.eqb].
    replace (index + 1 >=? len level) with true by lia.
    replace (index >? index) with false by lia. reflexivity. }
  destruct (length_pairUp_lt level Hlen) as (_ & _ & Hlog).
  destruct fuel as [|fuel]; [lia|].
  assert (Hloop : forall acc, exists rest,
             proofLoop (S fuel) index level acc =
             Returns (acc ++
                      {| hash := get level index; position := "left" |} :: rest)).
  { intros acc.
    destruct (proofLoop_first_step fuel index level acc Hlen ltac:(lia) Hfuel)
      as (rest & Hrest & _).
    exists rest. rewrite Hrest, Hstep. reflexivity. }
  split; [apply Hloop|]. split; [|split].
  - intros email He.
    assert (Hin : In (hashData email) level).
    { destruct (in_dec string_dec (hashData email) level) as [Hin|Hout];
        [exact Hin|].
      unfold indexOf in He. rewrite indexOfFrom_absent in He by exact Hout.
      lia. }
    destruct (indexOf_In _ _ Hin) as [_ Hget]. rewrite He in Hget.
    split; [exact Hget|].
    destruct (Hloop []) as (rest & Hrest). exists rest.
    rewrite generateMerkleProof_found, He, Hrest, Hget by exact Hin.
    reflexivity.
  - reflexivity.
  - rewrite nextLevel_pairUp, get_pairUp by lia.
    rewrite (even_index _ Hpar).
    replace (index + 1 <? len level) with false by lia. reflexivity.
Qed.

(** C9.  Duplicate leaves: the generator works from the first position
    that holds the target digest, whether or not later positions hold it
    too; its result is the loop run from that position. *)
Theorem C9_first_match (fuel : nat) (email : string)
        (hashedEmails : list string) (first : Z) :
  0 <= first < len hashedEmails ->
  get hashedEmails first = hashData email ->
  (forall j, 0 <= j < first -> get hashedEmails j <> hashData email) ->
  indexOf hashedEmails (hashData email) = first /\
  generateMerkleProof fuel email hashedEmails =
  match proofLoop fuel first hashedEmails [] with
  | Returns proof => Returns (Some proof)
  | OutOfFuel => OutOfFuel
  end.
Proof.
  intros Hk Hget Hfirst.
  assert (Hidx : indexOf hashedEmails (hashData email) = first).
  { unfold indexOf. rewrite (indexOfFrom_first _ _ first 0); trivial. }
  split; [exact Hidx|].
  unfold generateMerkleProof. cbv zeta. rewrite Hidx.
  destruct (first =? -1) eqn:E; [lia|reflexivity].
Qed.

Lemma buildMerkleTree_tree_root : forall (fuel : nat) (l : list string)
                                         (t : MerkleTree),
  buildMerkleTree fuel l = Returns t -> tree t = [root t].
Proof.
  induction fuel as [|fuel IH]; intros l t H;
    destruct (Z.eq_dec (len l) 1) as [E|N].
  - rewrite buildMerkleTree_base in H by trivial. injection H as <-.
    cbn. now apply single_level.
  - rewrite buildMerkleTree_out in H by trivial. discriminate.
  - rewrite buildMerkleTree_base in H by trivial. injection H as <-.
    cbn. now apply single_level.
  - rewrite buildMerkleTree_step in H by trivial. now apply IH in H.
Qed.

(** C10.  For a non-empty array the builder returns a record (once the
    depth allows as many calls as there are levels above the leaves)
    whose [tree] is the one-entry array holding the root: it is the
    argument of the last recursive call, so for more than one leaf it is
    not the leaf array, and no lower level is kept in it.  Whatever the
    depth, a record that is returned has this shape. *)
Theorem C10_tree_is_root_level (fuel : nat) (hashedEmails : list string) :
  hashedEmails <> [] ->
  (Nat.log2_up (List.length hashedEmails) <= fuel)%nat ->
  exists t,
    buildMerkleTree fuel hashedEmails = Returns t /\
    tree t = [root t] /\
    (1 < len hashedEmails -> tree t <> hashedEmails) /\
    (forall fuel' t', buildMerkleTree fuel' hashedEmails = Returns t' ->
                      tree t' = [root t']).
Proof.
  intros Hne Hfuel.
  assert (H0 : 0 <= 0 < len hashedEmails).
  { destruct hashedEmails; [contradiction|].
    rewrite len_cons. pose proof (len_nonneg hashedEmails). lia. }
  destruct (proofLoop_builds _ hashedEmails eq_refl 0 [] fuel H0 Hfuel)
    as (steps & _ & _ & Hbuild).
  eexists. split; [apply Hbuild; exact Hfuel|]. cbn [tree root].
  split; [reflexivity|]. split.
  - intros Hlen Heq. rewrite <- Heq in Hlen. cbn in Hlen. lia.
  - intros fuel' t'. apply buildMerkleTree_tree_root.
Qed.

(** ** Further properties: levels, depth, tags *)

(** X1.  The builder's [for] loop and the generator's [reduce] compute
    the same next level, of [ceil (n / 2)] entries for a level of [n]. *)
Theorem X1_loops_agree (l : list string) :
  nextLevel l = reduceLevel l /\ len (nextLevel l) = (len l + 1) / 2.
Proof.
  rewrite nextLevel_pairUp, reduceLevel_pairUp, len_pairUp. split; reflexivity.
Qed.

(** X2.  Pairing rule: entry [k] of the next level is the hash of the
    entries [2k] and [2k + 1] of the level, joined in this order, and of
    entry [2k] joined with itself when [2k] is the last index. *)
Theorem X2_next_level_entry (l : list string) (k : Z) :
  0 <= k < len (nextLevel l) ->
  get (nextLevel l) k =
  hashData (get l (2 * k) +++
            (if 2 * k + 1 <? len l then get l (2 * k + 1) else get l (2 * k))).
Proof.
  rewrite nextLevel_pairUp, len_pairUp. intros Hk.
  assert (Hr : 0 <= 2 * k < len l).
  { pose proof (Z.div_mod (len l + 1) 2).
    pose proof (Z.mod_pos_bound (len l + 1) 2). lia. }
  assert (Hd : 2 * k / 2 = k) by (rewrite Z.mul_comm; apply Z.div_mul; lia).
  pose proof (get_pairUp l (2 * k) Hr) as H. rewrite Hd in H. exact H.
Qed.

Lemma siblingStep_cases (index : Z) (l : list string) :
  0 <= index < len l ->
  siblingStep index l =
  if index mod 2 =? 0 then
    if index + 1 <? len l
    then {| hash := get l (index + 1); position := "right" |}
    else {| hash := get l index; position := "left" |}
  else {| hash := get l (index - 1); position := "left" |}.
Proof.
  intros Hi. unfold siblingStep. destruct (index mod 2 =? 0).
  - destruct (index + 1 <? len l) eqn:E.
    + replace (index + 1 >=? len l) with false by lia.
      replace (index + 1 >? index) with true by lia. reflexivity.
    + replace (index + 1 >=? len l) with true by lia.
      replace (index >? index) with false by lia. reflexivity.
  - replace (index - 1 >=? len l) with false by lia.
    replace (index - 1 >? index) with false by lia. reflexivity.
Qed.

(** X3.  One iteration: at any index of a level of more than one entry,
    the proof the loop returns continues the proof so far with the
    sibling step (the right neighbour tagged ["right"] at an even index,
    the entry itself tagged ["left"] when that index is the last, the
    left neighbour tagged ["left"] at an odd index) and then with what
    the loop returns from index [floor (index / 2)] of the builder's
    next level; replaying the step from the entry at the index gives the
    builder's entry at that new index, which is in range. *)
Theorem X3_step_replays_to_parent (fuel : nat) (index : Z) (l : list string)
        (proof : list ProofStep) :
  1 < len l -> 0 <= index < len l ->
  (Nat.log2_up (List.length l) <= S fuel)%nat ->
  let step :=
    if index mod 2 =? 0 then
      if index + 1 <? len l
      then {| hash := get l (index + 1); position := "right" |}
      else {| hash := get l index; position := "left" |}
    else {| hash := get l (index - 1); position := "left" |} in
  exists rest,
    proofLoop (S fuel) index l proof = Returns (proof ++ step :: rest) /\
    proofLoop fuel (index / 2) (nextLevel l) [] = Returns rest /\
    verifyStep (get l index) step = get (nextLevel l) (index / 2) /\
    0 <= index / 2 < len (nextLevel l).
Proof.
  intros Hlen Hi Hfuel step.
  assert (Hstep : siblingStep index l = step) by (apply siblingStep_cases, Hi).
  destruct (proofLoop_first_step fuel index l proof Hlen Hi Hfuel)
    as (rest & Hloop & Hrest).
  exists rest. rewrite <- Hstep. split; [exact Hloop|]. split; [exact Hrest|].
  rewrite nextLevel_pairUp. split; [apply verifyStep_parent; exact Hi|].
  rewrite len_pairUp. split; [apply Z.div_pos; lia|].
  apply Z.div_lt_upper_bound; [lia|].
  pose proof (Z.div_mod (len l + 1) 2).
  pose proof (Z.mod_pos_bound (len l + 1) 2). lia.
Qed.

Lemma buildMerkleTree_short : forall (n : nat) (l : list string),
  List.length l = n -> forall fuel, (fuel < Nat.log2_up n)%nat ->
  buildMerkleTree fuel l = OutOfFuel.
Proof.
  induction n as [n IH] using lt_wf_ind. intros l Hn fuel Hfuel.
  destruct (Z_le_gt_dec (len l) 1) as [Hle|Hgt].
  - exfalso. assert (n <= 1)%nat by (unfold len in Hle; lia).
    assert (Nat.log2_up n = 0)%nat.
    { destruct n as [|[|n']]; [reflexivity|reflexivity|lia]. }
    lia.
  - destruct (length_pairUp_lt l ltac:(lia)) as (H2 & _ & Hlog).
    rewrite Hn in Hlog, H2.
    destruct fuel as [|fuel]; [apply buildMerkleTree_out; lia|].
    rewrite buildMerkleTree_step, nextLevel_pairUp by lia.
    apply (IH (List.length (pairUp l))); [|reflexivity|lia].
    rewrite length_pairUp, Nat.div2_div, Hn.
    apply Nat.Div0.div_lt_upper_bound. lia.
Qed.

Lemma proofLoop_short : forall (n : nat) (l : list string),
  List.length l = n ->
  forall fuel index acc, (fuel < Nat.log2_up n)%nat ->
  proofLoop fuel index l acc = OutOfFuel.
Proof.
  induction n as [n IH] using lt_wf_ind. intros l Hn fuel index acc Hfuel.
  destruct (Z_le_gt_dec (len l) 1) as [Hle|Hgt].
  - exfalso. assert (n <= 1)%nat by (unfold len in Hle; lia).
    assert (Nat.log2_up n = 0)%nat.
    { destruct n as [|[|n']]; [reflexivity|reflexivity|lia]. }
    lia.
  - destruct (length_pairUp_lt l ltac:(lia)) as (H2 & _ & Hlog).
    rewrite Hn in Hlog, H2.
    destruct fuel as [|fuel]; [apply proofLoop_out; lia|].
    rewrite proofLoop_step, reduceLevel_pairUp by lia.
    apply (IH (List.length (pairUp l))); [|reflexivity|lia].
    rewrite length_pairUp, Nat.div2_div, Hn.
    apply Nat.Div0.div_lt_upper_bound. lia.
Qed.

Lemma buildMerkleTree_returns (fuel : nat) (l : list string) :
  l <> [] -> (Nat.log2_up (List.length l) <= fuel)%nat ->
  exists r, buildMerkleTree fuel l = Returns {| tree := [r]; root := r |}.
Proof.
  intros Hne Hfuel.
  assert (H0 : 0 <= 0 < len l).
  { destruct l; [contradiction|]. rewrite len_cons.
    pose proof (len_nonneg l). lia. }
  destruct (proofLoop_builds _ l eq_refl 0 [] fuel H0 Hfuel)
    as (steps & _ & _ & Hbuild).
  eexists. apply Hbuild. exact Hfuel.
Qed.

(** X4.  Depth: on [n >= 1] leaves the builder returns exactly when
    [ceil (log2 n)] nested calls are allowed, and the generator, for a
    target among the leaves, exactly when as many iterations are; with
    fewer, neither has returned. *)
Theorem X4_depth_is_log2 (fuel : nat) (email : string) (l : list string) :
  In (hashData email) l ->
  ((exists t, buildMerkleTree fuel l = Returns t) <->
   (Nat.log2_up (List.length l) <= fuel)%nat) /\
  ((exists p, generateMerkleProof fuel email l = Returns p) <->
   (Nat.log2_up (List.length l) <= fuel)%nat).
Proof.
  intros Hin. assert (Hne : l <> []) by (intros ->; destruct Hin).
  destruct (indexOf_In _ _ Hin) as [Hidx _].
  rewrite generateMerkleProof_found by exact Hin.
  destruct (Nat.le_gt_cases (Nat.log2_up (List.length l)) fuel) as [Hle|Hlt].
  - split; (split; [intros _; exact Hle|intros _]).
    + destruct (buildMerkleTree_returns fuel l Hne Hle) as [r Hr]. eauto.
    + destruct (proofLoop_builds _ l eq_refl
                  (indexOf l (hashData email)) [] fuel Hidx Hle)
        as (steps & Hloop & _). rewrite Hloop. eauto.
  - split; (split; [intros [t Ht]|intros H; lia]).
    + rewrite (buildMerkleTree_short _ l eq_refl fuel Hlt) in Ht. discriminate.
    + rewrite (proofLoop_short _ l eq_refl fuel _ _ Hlt) in Ht. discriminate.
Qed.

Lemma proofLoop_tags (P : ProofStep -> Prop) :
  (forall index l, P (siblingStep index l)) ->
  forall fuel index l acc out,
    Forall P acc -> proofLoop fuel index l acc = Returns out -> Forall P out.
Proof.
  intros HP. induction fuel as [|fuel IH]; intros index l acc out Hacc H;
    destruct (Z_le_gt_dec (len l) 1) as [Hle|Hgt].
  - rewrite proofLoop_done in H by trivial. now injection H as <-.
  - rewrite proofLoop_out in H by lia. discriminate.
  - rewrite proofLoop_done in H by trivial. now injection H as <-.
  - rewrite proofLoop_step in H by lia. apply IH in H; trivial.
    apply Forall_app. split; [exact Hacc|]. constructor; [apply HP|constructor].
Qed.

(** X5.  The generator writes no side tag other than ["left"] and
    ["right"]: every step of a proof it returns carries one of the
    two. *)
Theorem X5_generated_tags (fuel : nat) (email : string) (l : list string)
        (proof : list ProofStep) :
  generateMerkleProof fuel email l = Returns (Some proof) ->
  Forall (fun step => position step = "left" \/ position step = "right") proof.
Proof.
  unfold generateMerkleProof. cbv zeta.
  destruct (indexOf l (hashData email) =? -1); [discriminate|].
  destruct (proofLoop fuel (indexOf l (hashData email)) l []) as [out|] eqn:E;
    [|discriminate].
  intros H. injection H as <-.
  refine (proofLoop_tags _ _ fuel _ l [] out (Forall_nil _) E).
  intros index l'. unfold siblingStep. cbn [position].
  match goal with |- context [if ?c >? index then _ else _] =>
    destruct (c >? index) end; auto.
Qed.

(** ** Further properties: what the verifier accepts *)

Lemma indexOf_found_In (l : list string) (x : string) :
  indexOf l x <> -1 -> In x l.
Proof.
  intros H. destruct (in_dec string_dec x l) as [Hin|Hout]; [exact Hin|].
  exfalso. apply H. unfold indexOf. now apply indexOfFrom_absent.
Qed.

Lemma generateMerkleProof_some (fuel : nat) (email : string)
      (l : list string) (proof : list ProofStep) :
  generateMerkleProof fuel email l = Returns (Some proof) ->
  In (hashData email) l /\
  proofLoop fuel (indexOf l (hashData email)) l [] = Returns proof /\
  (Nat.log2_up (List.length l) <= fuel)%nat.
Proof.
  intros H.
  assert (Hin : In (hashData email) l).
  { apply indexOf_found_In. intros E. unfold generateMerkleProof in H.
    cbv zeta in H. rewrite E in H. discriminate. }
  rewrite generateMerkleProof_found in H by exact Hin.
  destruct (proofLoop fuel (indexOf l (hashData email)) l []) as [out|] eqn:E;
    [|discriminate].
  injection H as ->. repeat split; trivial.
  destruct (Nat.le_gt_cases (Nat.log2_up (List.length l)) fuel) as [Hle|Hlt];
    [exact Hle|].
  rewrite (proofLoop_short _ l eq_refl fuel _ _ Hlt) in E. discriminate.
Qed.

Lemma buildMerkleTree_fuel (fuel : nat) (l : list string) (t : MerkleTree) :
  buildMerkleTree fuel l = Returns t ->
  (Nat.log2_up (List.length l) <= fuel)%nat.
Proof.
  intros H.
  destruct (Nat.le_gt_cases (Nat.log2_up (List.length l)) fuel) as [Hle|Hlt];
    [exact Hle|].
  rewrite (buildMerkleTree_short _ l eq_refl fuel Hlt) in H. discriminate.
Qed.

(** The proof the generator returns replays, from the digest of the
    target, to the root the builder returns. *)
Lemma generated_proof_replays (fuelP fuelB : nat) (email : string)
      (l : list string) (proof : list ProofStep) (t : MerkleTree) :
  generateMerkleProof fuelP email l = Returns (Some proof) ->
  buildMerkleTree fuelB l = Returns t ->
  fold_left verifyStep proof (hashData email) = root t /\
  List.length proof = Nat.log2_up (List.length l).
Proof.
  intros Hgen Hbuild.
  destruct (generateMerkleProof_some _ _ _ _ Hgen) as (Hin & Hloop & HfP).
  pose proof (buildMerkleTree_fuel _ _ _ Hbuild) as HfB.
  destruct (indexOf_In _ _ Hin) as [Hidx Hget].
  destruct (proofLoop_builds _ l eq_refl (indexOf l (hashData email)) []
              fuelP Hidx HfP) as (steps & Hloop' & Hlen & Hb).
  rewrite Hloop in Hloop'. injection Hloop' as ->. cbn [app].
  rewrite (Hb fuelB HfB) in Hbuild. injection Hbuild as <-.
  cbn [root]. rewrite Hget. split; [reflexivity|exact Hlen].
Qed.

(** X6.  Whatever proof the generator returns verifies against the root
    the builder returns for the same leaves, and against no other
    text. *)
Theorem X6_verifies_against_builder_root_only (fuelP fuelB : nat)
        (email : string) (l : list string) (proof : list ProofStep)
        (t : MerkleTree) (r : string) :
  generateMerkleProof fuelP email l = Returns (Some proof) ->
  buildMerkleTree fuelB l = Returns t ->
  (verifyEmail email proof r = true <-> r = root t).
Proof.
  intros Hgen Hbuild.
  destruct (generated_proof_replays _ _ _ _ _ _ Hgen Hbuild) as [Hfold _].
  unfold verifyEmail. rewrite Hfold, String.eqb_eq.
  split; intros H; symmetry; exact H.
Qed.

(** X7.  Inner nodes pass as e-mails: for two or more leaves and a
    target among them, the text made of the target's digest and its
    sibling digest, joined as the first step of the proof says, is
    accepted by the verifier with the rest of the proof, although it is
    one step shorter than the proof of a leaf. *)
Theorem X7_inner_node_accepted (fuel : nat) (email : string)
        (l : list string) :
  In (hashData email) l -> (2 <= List.length l)%nat ->
  (Nat.log2_up (List.length l) <= fuel)%nat ->
  exists step rest t,
    generateMerkleProof fuel email l = Returns (Some (step :: rest)) /\
    buildMerkleTree fuel l = Returns t /\
    verifyEmail
      (if String.eqb (position step) "left"
       then hash step +++ hashData email
       else hashData email +++ hash step)
      rest (root t) = true.
Proof.
  intros Hin H2 Hfuel.
  destruct (indexOf_In _ _ Hin) as [Hidx Hget].
  destruct (proofLoop_builds _ l eq_refl (indexOf l (hashData email)) []
              fuel Hidx Hfuel) as (steps & Hloop & Hlen & Hb).
  assert (Hpos : (0 < Nat.log2_up (List.length l))%nat)
    by (apply Nat.log2_up_pos; lia).
  destruct steps as [|step rest]; [cbn in Hlen; lia|].
  exists step, rest. eexists.
  rewrite generateMerkleProof_found, Hloop by exact Hin.
  split; [reflexivity|]. split; [apply Hb; exact Hfuel|].
  unfold verifyEmail. cbn [root fold_left]. rewrite Hget.
  apply String.eqb_refl.
Qed.

Lemma pairUp_dup_last (l : list string) :
  len l mod 2 = 1 -> pairUp (l ++ [get l (len l - 1)]) = pairUp l.
Proof.
  induction l as [|a|a b l IH] using pair_ind; intros Hodd.
  - cbn in Hodd. discriminate.
  - reflexivity.
  - rewrite !len_cons in *. pose proof (len_nonneg l) as Hnn.
    replace (len l + 1 + 1) with (len l + 1 * 2) in Hodd by lia.
    rewrite Z.mod_add in Hodd by lia.
    assert (Hpos : 0 < len l).
    { destruct (Z.eq_dec (len l) 0) as [E|N]; [rewrite E in Hodd; discriminate|lia]. }
    replace (len l + 1 + 1 - 1) with (len l - 1 + 1 + 1) by lia.
    rewrite !get_cons_succ by lia.
    cbn [app pairUp]. rewrite IH by exact Hodd. reflexivity.
Qed.

(** X8.  The root does not tell an odd number of leaves from the same
    leaves with the last one repeated: for an array of odd length above
    one, appending a copy of its last entry changes nothing in what the
    builder returns. *)
Theorem X8_repeated_last_leaf (fuel : nat) (l : list string) :
  1 < len l -> len l mod 2 = 1 ->
  buildMerkleTree fuel (l ++ [get l (len l - 1)]) = buildMerkleTree fuel l.
Proof.
  intros Hlen Hodd.
  assert (Hlen' : len (l ++ [get l (len l - 1)]) <> 1).
  { rewrite len_app. change (len [_]) with 1. lia. }
  destruct fuel as [|fuel].
  - rewrite !buildMerkleTree_out by (trivial; lia). reflexivity.
  - rewrite !buildMerkleTree_step by (trivial; lia).
    rewrite !nextLevel_pairUp, pairUp_dup_last by exact Hodd. reflexivity.
Qed.

(** X9.  The script, for any list and target: with an empty list it is
    stuck in the builder and prints nothing; otherwise it prints the
    proof with the verdict [true] when the digest of the target is among
    the hashed e-mails, and that the e-mail was not found when it is
    not.  It never prints the verdict [false]. *)
Theorem X9_script_outcomes (fuel : nat) (emailList : list string)
        (targetEmail : string) :
  (Nat.log2_up (List.length emailList) <= fuel)%nat ->
  (emailList = [] /\ script fuel emailList targetEmail = OutOfFuel) \/
  (In (hashData targetEmail) (map hashData emailList) /\
   exists proof,
     script fuel emailList targetEmail = Returns (ProofAndVerdict proof true)) \/
  (emailList <> [] /\
   ~ In (hashData targetEmail) (map hashData emailList) /\
   script fuel emailList targetEmail = Returns EmailNotFound).
Proof.
  intros Hfuel. unfold script. cbv zeta.
  destruct emailList as [|e0 rest] eqn:EL.
  - left. split; [reflexivity|]. cbn [map]. now rewrite buildMerkleTree_empty.
  - right. rewrite <- EL in *. set (leaves := map hashData emailList).
    assert (Hlen : List.length leaves = List.length emailList)
      by apply length_map.
    assert (Hne : leaves <> []) by (unfold leaves; rewrite EL; discriminate).
    rewrite <- Hlen in Hfuel.
    destruct (buildMerkleTree_returns fuel leaves Hne Hfuel) as [r Hr].
    rewrite Hr. cbn [root].
    destruct (in_dec string_dec (hashData targetEmail) leaves) as [Hin|Hout].
    + left. split; [exact Hin|].
      destruct (indexOf_In _ _ Hin) as [Hidx Hget].
      destruct (proofLoop_builds _ leaves eq_refl
                  (indexOf leaves (hashData targetEmail)) [] fuel Hidx Hfuel)
        as (steps & Hloop & _ & Hb).
      rewrite generateMerkleProof_found, Hloop by exact Hin.
      exists steps. cbn [app]. do 2 f_equal.
      rewrite (Hb fuel Hfuel) in Hr. injection Hr as <-.
      unfold verifyEmail. rewrite Hget. apply String.eqb_refl.
    + right. split; [rewrite EL; discriminate|]. split; [exact Hout|].
      unfold generateMerkleProof, indexOf. cbv zeta.
      rewrite indexOfFrom_absent by exact Hout. reflexivity.
Qed.

(** ** Further properties: what the root commits to

    For a digest of fixed length, as a hexadecimal SHA-256 digest is, the
    text [left + right] splits in one way only, and a failure of the two
    properties below exhibits a [collision]. *)











End MerkleTrees.

(** ** The program's own run, with SHA-256 *)

Example sha256_abc :
  Sha256.hexDigest "abc" =
  "ba7816bf8f01cfea414140de5dae2223b00361a396177a9cb410ff61f20015ad".
Proof. vm_compute. reflexivity. Qed.

Example sha256_empty :
  Sha256.hexDigest "" =
  "e3b0c44298fc1c149afbf4c8996fb92427ae41e4649b934ca495991b7852b855".
Proof. vm_compute. reflexivity. Qed.

(** The script: three e-mails, the proof for the first one, accepted
    against the root and rejected against another digest. *)
Example script_run :
  buildMerkleTree Sha256.hexDigest 2 (map Sha256.hexDigest emailList) =
  Returns
    {| tree := ["54601136243f1685a15ff82b8e2b444f7429793c956b666578578a960ead7102"];
       root := "54601136243f1685a15ff82b8e2b444f7429793c956b666578578a960ead7102" |} /\
  generateMerkleProof Sha256.hexDigest 2 targetEmail
                      (map Sha256.hexDigest emailList) =
  Returns (Some
    [ {| hash := "c57bca66444a202b4bf6b8f5918f236c8d61b83535b513c3054c0213e3b39cf1";
         position := "right" |};
      {| hash := "b474dfee140e6b0bf83cf36af37daacea84773b597e3872be4dad56511c687ca";
         position := "right" |} ]) /\
  verifyEmail Sha256.hexDigest targetEmail
    [ {| hash := "c57bca66444a202b4bf6b8f5918f236c8d61b83535b513c3054c0213e3b39cf1";
         position := "right" |};
      {| hash := "b474dfee140e6b0bf83cf36af37daacea84773b597e3872be4dad56511c687ca";
         position := "right" |} ]
    "54601136243f1685a15ff82b8e2b444f7429793c956b666578578a960ead7102" = true /\
  verifyEmail Sha256.hexDigest targetEmail
    [ {| hash := "c57bca66444a202b4bf6b8f5918f236c8d61b83535b513c3054c0213e3b39cf1";
         position := "right" |};
      {| hash := "b474dfee140e6b0bf83cf36af37daacea84773b597e3872be4dad56511c687ca";
         position := "right" |} ]
    (Sha256.hexDigest "abc") = false.
Proof. vm_compute. repeat split. Qed.

Lemma C1_round_trip_witness :
  exists proof t,
    generateMerkleProof Sha256.hexDigest 2 targetEmail
                        (map Sha256.hexDigest emailList) =
    Returns (Some proof) /\
    buildMerkleTree Sha256.hexDigest 2 (map Sha256.hexDigest emailList) =
    Returns t /\
    verifyEmail Sha256.hexDigest targetEmail proof (root t) = true.
Proof.
  apply (C1_round_trip Sha256.hexDigest emailList targetEmail 2).
  - left. reflexivity.
  - vm_compute. lia.
Defined.

(** C2, as the spec has it, fails: with SHA-256 as everywhere, the call
    on the empty array is still running at every depth; it ends neither
    with an error nor otherwise. *)
Lemma C2_empty_diverges :
  ~ (exists fuel, buildMerkleTree Sha256.hexDigest fuel [] <> OutOfFuel).
Proof.
  intros [fuel H]. apply H. apply buildMerkleTree_empty.
Qed.

(** C5, as the spec has it, fails: the script's proof with its side tags
    replaced by tags that are neither ["left"] nor ["right"] is not
    refused; the verifier returns [true]. *)
Lemma C5_unknown_tag_accepted :
  verifyEmail Sha256.hexDigest "marco@example.com"
    [ {| hash := "c57bca66444a202b4bf6b8f5918f236c8d61b83535b513c3054c0213e3b39cf1";
         position := "up" |};
      {| hash := "b474dfee140e6b0bf83cf36af37daacea84773b597e3872be4dad56511c687ca";
         position := "LEFT" |} ]
    "54601136243f1685a15ff82b8e2b444f7429793c956b666578578a960ead7102" = true.
Proof. vm_compute. reflexivity. Qed.

Lemma C5_other_tag_is_right_witness :
  verifyStep Sha256.hexDigest
    (fold_left (verifyStep Sha256.hexDigest) [] (Sha256.hexDigest "marco@example.com"))
    {| hash := "c57bca66444a202b4bf6b8f5918f236c8d61b83535b513c3054c0213e3b39cf1";
       position := "up" |} =
  Sha256.hexDigest
    (fold_left (verifyStep Sha256.hexDigest) [] (Sha256.hexDigest "marco@example.com")
     +++ "c57bca66444a202b4bf6b8f5918f236c8d61b83535b513c3054c0213e3b39cf1") /\
  verifyEmail Sha256.hexDigest "marco@example.com"
    ([] ++ {| hash := "c57bca66444a202b4bf6b8f5918f236c8d61b83535b513c3054c0213e3b39cf1";
              position := "up" |} :: [])
    "8fa10465f87233f52fde53af770b5a6f6e1334b7f8f42178ac5088fe3e8a92dd" =
  verifyEmail Sha256.hexDigest "marco@example.com"
    ([] ++ {| hash := "c57bca66444a202b4bf6b8f5918f236c8d61b83535b513c3054c0213e3b39cf1";
              position := "right" |} :: [])
    "8fa10465f87233f52fde53af770b5a6f6e1334b7f8f42178ac5088fe3e8a92dd".
Proof.
  apply (C5_other_tag_is_right Sha256.hexDigest "marco@example.com" []
           {| hash := "c57bca66444a202b4bf6b8f5918f236c8d61b83535b513c3054c0213e3b39cf1";
              position := "up" |} []).
  cbn. discriminate.
Defined.

Lemma C6_absent_is_null_witness :
  generateMerkleProof Sha256.hexDigest 0 "nobody@example.com"
                      (map Sha256.hexDigest emailList) = Returns None.
Proof.
  apply (C6_absent_is_null Sha256.hexDigest 0 "nobody@example.com").
  vm_compute. intros [H|[H|[H|[]]]]; discriminate H.
Defined.

Lemma C7_proof_length_witness :
  exists proof,
    generateMerkleProof Sha256.hexDigest 2 "tanay@example.com"
                        (map Sha256.hexDigest emailList) =
    Returns (Some proof) /\
    List.length proof = Nat.log2_up (List.length (map Sha256.hexDigest emailList)) /\
    (List.length (map Sha256.hexDigest emailList) = 1%nat -> proof = []).
Proof.
  apply (C7_proof_length Sha256.hexDigest 2 "tanay@example.com").
  - right. right. left. reflexivity.
  - vm_compute. lia.
Defined.

Lemma C8_self_pair_witness :
  (exists rest,
      proofLoop Sha256.hexDigest 2 2 (map Sha256.hexDigest emailList) [] =
      Returns ([] ++
               {| hash := get (map Sha256.hexDigest emailList) 2;
                  position := "left" |} :: rest)) /\
  (forall email,
      indexOf (map Sha256.hexDigest emailList) (Sha256.hexDigest email) = 2 ->
      get (map Sha256.hexDigest emailList) 2 = Sha256.hexDigest email /\
      exists rest,
        generateMerkleProof Sha256.hexDigest 2 email
                            (map Sha256.hexDigest emailList) =
        Returns (Some ({| hash := Sha256.hexDigest email; position := "left" |}
                         :: rest))) /\
  verifyStep Sha256.hexDigest (get (map Sha256.hexDigest emailList) 2)
             {| hash := get (map Sha256.hexDigest emailList) 2;
                position := "left" |} =
  Sha256.hexDigest (get (map Sha256.hexDigest emailList) 2 +++
                    get (map Sha256.hexDigest emailList) 2) /\
  get (nextLevel Sha256.hexDigest (map Sha256.hexDigest emailList)) (2 / 2) =
  Sha256.hexDigest (get (map Sha256.hexDigest emailList) 2 +++
                    get (map Sha256.hexDigest emailList) 2).
Proof.
  apply (C8_self_pair Sha256.hexDigest 2 2 (map Sha256.hexDigest emailList) []).
  - reflexivity.
  - reflexivity.
  - reflexivity.
  - vm_compute. lia.
Defined.

Lemma C9_first_match_witness :
  indexOf (map Sha256.hexDigest ["jenna@example.com"; "marco@example.com";
                                 "tanay@example.com"; "marco@example.com"])
          (Sha256.hexDigest "marco@example.com") = 1 /\
  generateMerkleProof Sha256.hexDigest 2 "marco@example.com"
    (map Sha256.hexDigest ["jenna@example.com"; "marco@example.com";
                           "tanay@example.com"; "marco@example.com"]) =
  match proofLoop Sha256.hexDigest 2 1
          (map Sha256.hexDigest ["jenna@example.com"; "marco@example.com";
                                 "tanay@example.com"; "marco@example.com"]) []
  with
  | Returns proof => Returns (Some proof)
  | OutOfFuel => OutOfFuel
  end.
Proof.
  apply (C9_first_match Sha256.hexDigest 2 "marco@example.com").
  - vm_compute. split; [discriminate|reflexivity].
  - vm_compute. reflexivity.
  - intros j Hj. assert (j = 0) as -> by lia. vm_compute. discriminate.
Defined.

Lemma C10_tree_is_root_level_witness :
  exists t,
    buildMerkleTree Sha256.hexDigest 2 (map Sha256.hexDigest emailList) =
    Returns t /\
    tree t = [root t] /\
    (1 < len (map Sha256.hexDigest emailList) ->
     tree t <> map Sha256.hexDigest emailList) /\
    (forall fuel' t',
        buildMerkleTree Sha256.hexDigest fuel' (map Sha256.hexDigest emailList) =
        Returns t' -> tree t' = [root t']).
Proof.
  apply (C10_tree_is_root_level Sha256.hexDigest 2).
  - discriminate.
  - vm_compute. lia.
Defined.

(** ** [hashData]: the shape of a digest *)

Lemma length_string_of_list_ascii (l : list ascii) :
  String.length (string_of_list_ascii l) = List.length l.
Proof. induction l as [|c l IH]; cbn; [reflexivity|now rewrite IH]. Qed.

Lemma round_vars_length (st : list Z * list Z) (k : Z) :
  List.length (fst (Sha256.round st k)) = 8%nat.
Proof. destruct st. reflexivity. Qed.

Lemma rounds_vars_length (ks : list Z) : forall st,
  List.length (fst st) = 8%nat ->
  List.length (fst (fold_left Sha256.round ks st)) = 8%nat.
Proof.
  induction ks as [|k ks IH]; intros st H; cbn [fold_left]; [exact H|].
  apply IH, round_vars_length.
Qed.

Lemma compress_length (state block : list Z) :
  List.length state = 8%nat ->
  List.length (Sha256.compress state block) = 8%nat.
Proof.
  intros H. unfold Sha256.compress. cbv zeta.
  rewrite length_map, length_combine, rounds_vars_length, H by exact H.
  reflexivity.
Qed.

Lemma blocks_length (n : nat) : forall state ws,
  List.length state = 8%nat ->
  List.length (Sha256.blocks n state ws) = 8%nat.
Proof.
  induction n as [|n IH]; intros state ws H; cbn [Sha256.blocks]; [exact H|].
  apply IH, compress_length, H.
Qed.

Lemma hexDigit_lower (d : Z) :
  0 <= d < 16 -> isLowerHex (Sha256.hexDigit d) = true.
Proof.
  intros H.
  assert (E : d = 0 \/ d = 1 \/ d = 2 \/ d = 3 \/ d = 4 \/ d = 5 \/ d = 6 \/
              d = 7 \/ d = 8 \/ d = 9 \/ d = 10 \/ d = 11 \/ d = 12 \/
              d = 13 \/ d = 14 \/ d = 15) by lia.
  repeat (destruct E as [->|E]; [reflexivity|]). subst d. reflexivity.
Qed.

Lemma hexOfWords_shape (ws : list Z) :
  List.length (flat_map Sha256.hexOfWord ws) = (8 * List.length ws)%nat /\
  forallb isLowerHex (flat_map Sha256.hexOfWord ws) = true.
Proof.
  induction ws as [|w ws [IHl IHc]]; [split; reflexivity|].
  cbn [flat_map]. rewrite length_app, forallb_app, IHl, IHc. split.
  - unfold Sha256.hexOfWord. rewrite length_map, length_rev, length_seq.
    cbn [List.length]. lia.
  - rewrite andb_true_r. apply forallb_forall. intros c Hc.
    unfold Sha256.hexOfWord in Hc. apply in_map_iff in Hc.
    destruct Hc as (k & <- & _). apply hexDigit_lower.
    apply Z.mod_pos_bound. lia.
Qed.

Lemma hexDigest_length (s : string) :
  String.length (Sha256.hexDigest s) = 64%nat.
Proof.
  unfold Sha256.hexDigest. rewrite length_string_of_list_ascii.
  rewrite (proj1 (hexOfWords_shape _)). unfold Sha256.digestWords. cbv zeta.
  rewrite blocks_length; reflexivity.
Qed.

(** X12.  [hashData] with SHA-256 returns, for every text, 64 characters
    that are all lower-case hexadecimal digits. *)
Theorem X12_digest_is_64_hex (s : string) :
  String.length (Sha256.hexDigest s) = 64%nat /\
  forallb isLowerHex (list_ascii_of_string (Sha256.hexDigest s)) = true.
Proof.
  split; [apply hexDigest_length|].
  unfold Sha256.hexDigest. rewrite list_ascii_of_string_of_list_ascii.
  apply hexOfWords_shape.
Qed.

(** ** Runs of the further properties, with SHA-256 *)

Lemma X2_next_level_entry_witness :
  get (nextLevel Sha256.hexDigest (map Sha256.hexDigest emailList)) 1 =
  Sha256.hexDigest
    (get (map Sha256.hexDigest emailList) (2 * 1) +++
     (if 2 * 1 + 1 <? len (map Sha256.hexDigest emailList)
      then get (map Sha256.hexDigest emailList) (2 * 1 + 1)
      else get (map Sha256.hexDigest emailList) (2 * 1))).
Proof.
  apply (X2_next_level_entry Sha256.hexDigest (map Sha256.hexDigest emailList) 1).
  vm_compute. split; [discriminate|reflexivity].
Defined.

Lemma X3_step_replays_to_parent_witness :
  exists rest,
    proofLoop Sha256.hexDigest 2 1 (map Sha256.hexDigest emailList) [] =
    Returns ([] ++
             {| hash := get (map Sha256.hexDigest emailList) (1 - 1);
                position := "left" |} :: rest) /\
    proofLoop Sha256.hexDigest 1 (1 / 2)
              (nextLevel Sha256.hexDigest (map Sha256.hexDigest emailList)) [] =
    Returns rest /\
    verifyStep Sha256.hexDigest (get (map Sha256.hexDigest emailList) 1)
               {| hash := get (map Sha256.hexDigest emailList) (1 - 1);
                  position := "left" |} =
    get (nextLevel Sha256.hexDigest (map Sha256.hexDigest emailList)) (1 / 2) /\
    0 <= 1 / 2 <
    len (nextLevel Sha256.hexDigest (map Sha256.hexDigest emailList)).
Proof.
  apply (X3_step_replays_to_parent Sha256.hexDigest 1 1
           (map Sha256.hexDigest emailList) []).
  - reflexivity.
  - split; [discriminate|reflexivity].
  - vm_compute. lia.
Defined.

Lemma X4_depth_is_log2_witness :
  ((exists t, buildMerkleTree Sha256.hexDigest 1
                (map Sha256.hexDigest emailList) = Returns t) <->
   (Nat.log2_up (List.length (map Sha256.hexDigest emailList)) <= 1)%nat) /\
  ((exists p, generateMerkleProof Sha256.hexDigest 1 targetEmail
                (map Sha256.hexDigest emailList) = Returns p) <->
   (Nat.log2_up (List.length (map Sha256.hexDigest emailList)) <= 1)%nat).
Proof.
  apply (X4_depth_is_log2 Sha256.hexDigest 1 targetEmail).
  left. reflexivity.
Defined.

Lemma X5_generated_tags_witness :
  Forall (fun step => position step = "left" \/ position step = "right")
    [ {| hash := "6db18dbfcb9da168cfec321ff8200ed032d97c84d4f2dda9652816e4aa33cf30";
         position := "left" |};
      {| hash := "8fa10465f87233f52fde53af770b5a6f6e1334b7f8f42178ac5088fe3e8a92dd";
         position := "left" |} ].
Proof.
  apply (X5_generated_tags Sha256.hexDigest 2 "tanay@example.com"
           (map Sha256.hexDigest emailList)).
  vm_compute. reflexivity.
Defined.

Lemma X6_verifies_against_builder_root_only_witness :
  verifyEmail Sha256.hexDigest targetEmail
    [ {| hash := "c57bca66444a202b4bf6b8f5918f236c8d61b83535b513c3054c0213e3b39cf1";
         position := "right" |};
      {| hash := "b474dfee140e6b0bf83cf36af37daacea84773b597e3872be4dad56511c687ca";
         position := "right" |} ]
    (Sha256.hexDigest "abc") = true <->
  Sha256.hexDigest "abc" =
  root {| tree := ["54601136243f1685a15ff82b8e2b444f7429793c956b666578578a960ead7102"];
          root := "54601136243f1685a15ff82b8e2b444f7429793c956b666578578a960ead7102" |}.
Proof.
  apply (X6_verifies_against_builder_root_only Sha256.hexDigest 2 2 targetEmail
           (map Sha256.hexDigest emailList)).
  - vm_compute. reflexivity.
  - vm_compute. reflexivity.
Defined.

Lemma X7_inner_node_accepted_witness :
  exists step rest t,
    generateMerkleProof Sha256.hexDigest 2 targetEmail
                        (map Sha256.hexDigest emailList) =
    Returns (Some (step :: rest)) /\
    buildMerkleTree Sha256.hexDigest 2 (map Sha256.hexDigest emailList) =
    Returns t /\
    verifyEmail Sha256.hexDigest
      (if String.eqb (position step) "left"
       then hash step +++ Sha256.hexDigest targetEmail
       else Sha256.hexDigest targetEmail +++ hash step)
      rest (root t) = true.
Proof.
  apply (X7_inner_node_accepted Sha256.hexDigest 2 targetEmail
           (map Sha256.hexDigest emailList)).
  - left. reflexivity.
  - cbn. lia.
  - vm_compute. lia.
Defined.

Lemma X8_repeated_last_leaf_witness :
  buildMerkleTree Sha256.hexDigest 2
    (map Sha256.hexDigest emailList ++
     [get (map Sha256.hexDigest emailList)
          (len (map Sha256.hexDigest emailList) - 1)]) =
  buildMerkleTree Sha256.hexDigest 2 (map Sha256.hexDigest emailList).
Proof.
  apply (X8_repeated_last_leaf Sha256.hexDigest 2
           (map Sha256.hexDigest emailList)); reflexivity.
Defined.

Lemma X9_script_outcomes_witness :
  (emailList = [] /\
   script Sha256.hexDigest 2 emailList targetEmail = OutOfFuel) \/
  (In (Sha256.hexDigest targetEmail) (map Sha256.hexDigest emailList) /\
   exists proof,
     script Sha256.hexDigest 2 emailList targetEmail =
     Returns (ProofAndVerdict proof true)) \/
  (emailList <> [] /\
   ~ In (Sha256.hexDigest targetEmail) (map Sha256.hexDigest emailList) /\
   script Sha256.hexDigest 2 emailList targetEmail = Returns EmailNotFound).
Proof.
  apply (X9_script_outcomes Sha256.hexDigest 2 emailList targetEmail).
  vm_compute. lia.
Defined.


